(** * salve: the glerbl hook configuration [.glerbl/repo_conf.py]

    The repository ships one Python module for the glerbl hook manager.  It
    binds the name [checks] to a dict display that maps the git hook
    ['pre-commit'] to the list of checks to run before a commit.

    The development has three layers:
    - [Source]: the text of the module, character for character, and the
      counting of its lines;
    - [Python]: the lexical and syntactic reading of that text for the
      fragment of Python the module is written in, and the evaluation of
      literal displays;
    - [Conf]: the value of [checks], and what holds of it.

    A last part, [Hooks], models the consumer of the configuration, which is
    not part of this repository. *)

From Stdlib Require Import Ascii String ZArith Lia.
From stdpp Require Import gmap strings list.

#[local] Set Warnings "-register-all".

(** ** The text of the module *)

Module Source.

(** The double quote and the line feed, by their character codes. *)
Definition dq : string := String "034"%char EmptyString.
Definition lf : ascii := "010"%char.

(** The lines of [.glerbl/repo_conf.py], without their line feeds. *)
Definition repo_conf_lines : list string :=
  [ "checks = {"
  ; "    'pre-commit': ["
  ; "        # BEFORE_COMMIT in the root of the working tree can be used as"
  ; "        # reminder to do something before the next commit."
  ; "        " +:+ dq +:+ "no_before_commit" +:+ dq +:+ ","
  ; ""
  ; "        # We only allow ASCII filenames."
  ; "        " +:+ dq +:+ "no_non_ascii_filenames" +:+ dq +:+ ","
  ; ""
  ; "        # We don't allow trailing whitespaces."
  ; "        " +:+ dq +:+ "no_trailing_whitespace" +:+ dq +:+ ","
  ; "    ]"
  ; "}" ].

(** The file: its lines separated by line feeds.  The last line, the
    closing brace, is not followed by a line feed. *)
Definition repo_conf_py : string :=
  Eval cbv in String.concat (String lf EmptyString) repo_conf_lines.

(** Python's [str.splitlines] restricted to the line feed: a line ends at
    a line feed or at the end of the text, and an empty text has no
    line. *)
Fixpoint splitlines_from (cur : string) (started : bool) (s : string)
  : list string :=
  match s with
  | EmptyString => if started then [String.rev cur] else []
  | String c rest =>
      if Ascii.eqb c lf
      then String.rev cur :: splitlines_from EmptyString false rest
      else splitlines_from (String c cur) true rest
  end.

Definition splitlines (s : string) : list string :=
  splitlines_from EmptyString false s.

Definition line_count (s : string) : nat := List.length (splitlines s).

(** The number of line feed characters, which is what [wc -l] prints. *)
Fixpoint count_lf (s : string) : nat :=
  match s with
  | EmptyString => 0
  | String c rest => (if Ascii.eqb c lf then 1 else 0) + count_lf rest
  end.

End Source.

(** ** Reading the module: the fragment of Python it is written in *)

Module Python.

(** *** Tokens *)

Inductive token : Type :=
| TName (x : string)     (* an identifier or a keyword *)
| TString (s : string)   (* a short string literal, its quotes removed *)
| TOp (c : ascii)        (* a one-character operator or delimiter *)
| TNewline.              (* the end of a logical line *)

Inductive mode : Type :=
| Idle
| InName (acc : string)
| InString (quote : ascii) (acc : string)
| InComment.

Definition between (lo hi c : ascii) : bool :=
  (N_of_ascii lo <=? N_of_ascii c)%N && (N_of_ascii c <=? N_of_ascii hi)%N.

Definition is_blank (c : ascii) : bool :=
  Ascii.eqb c " " || Ascii.eqb c "009".

Definition is_name_start (c : ascii) : bool :=
  between "a" "z" c || between "A" "Z" c || Ascii.eqb c "_".

Definition is_name_char (c : ascii) : bool :=
  is_name_start c || between "0" "9" c.

Definition is_quote (c : ascii) : bool :=
  Ascii.eqb c "'" || Ascii.eqb c "034".

Definition is_open (c : ascii) : bool :=
  Ascii.eqb c "(" || Ascii.eqb c "[" || Ascii.eqb c "{".

Definition is_close (c : ascii) : bool :=
  Ascii.eqb c ")" || Ascii.eqb c "]" || Ascii.eqb c "}".

Definition is_punct (c : ascii) : bool :=
  Ascii.eqb c "=" || Ascii.eqb c ":" || Ascii.eqb c ",".

(** One character read between tokens, [depth] brackets being open: the
    tokens it completes, the mode it leaves the lexer in and the new
    depth.  A line feed inside brackets joins lines; a character of no
    class above is outside the fragment. *)
Definition idle (depth : nat) (c : ascii) : option (list token * mode * nat) :=
  if is_blank c then Some ([], Idle, depth)
  else if Ascii.eqb c Source.lf then
    Some (match depth with 0 => [TNewline] | _ => [] end, Idle, depth)
  else if Ascii.eqb c "#" then Some ([], InComment, depth)
  else if is_quote c then Some ([], InString c EmptyString, depth)
  else if is_name_start c then Some ([], InName (String c EmptyString), depth)
  else if is_open c then Some ([TOp c], Idle, S depth)
  else if is_close c then
    match depth with 0 => None | S d => Some ([TOp c], Idle, d) end
  else if is_punct c then Some ([TOp c], Idle, depth)
  else None.

(** The accumulators hold the characters read so far, last one first. *)
Fixpoint lex (m : mode) (depth : nat) (s : string) : option (list token) :=
  match s with
  | EmptyString =>
      match depth, m with
      | 0, Idle | 0, InComment => Some [TNewline]
      | 0, InName acc => Some [TName (String.rev acc); TNewline]
      | _, _ => None
      end
  | String c rest =>
      match m with
      | Idle =>
          '(ts, m', d') ← idle depth c;
          toks ← lex m' d' rest; Some (ts ++ toks)
      | InName acc =>
          if is_name_char c then lex (InName (String c acc)) depth rest
          else
            '(ts, m', d') ← idle depth c;
            toks ← lex m' d' rest; Some (TName (String.rev acc) :: ts ++ toks)
      | InString q acc =>
          if Ascii.eqb c q then
            toks ← lex Idle depth rest; Some (TString (String.rev acc) :: toks)
          else if Ascii.eqb c "\" || Ascii.eqb c Source.lf then None
          else lex (InString q (String c acc)) depth rest
      | InComment =>
          if Ascii.eqb c Source.lf then
            '(ts, m', d') ← idle depth c;
            toks ← lex m' d' rest; Some (ts ++ toks)
          else lex InComment depth rest
      end
  end.

Definition tokenize (s : string) : option (list token) := lex Idle 0 s.

(** *** Syntax *)

Inductive expr : Type :=
| EStr (s : string)
| EName (x : string)
| EList (items : list expr)
| EDict (items : list (expr * expr))
| ECall (callee : expr) (args : list expr).

Inductive stmt : Type :=
| SAssign (target : string) (value : expr)
| SExpr (e : expr).

(** Python's keywords: none of them is an identifier, and a statement or
    an expression that starts with one ([def], [class], [import],
    [lambda], [if], ...) is outside the fragment. *)
Definition keywords : list string :=
  [ "False"; "None"; "True"; "and"; "as"; "assert"; "async"; "await"
  ; "break"; "class"; "continue"; "def"; "del"; "elif"; "else"; "except"
  ; "finally"; "for"; "from"; "global"; "if"; "import"; "in"; "is"
  ; "lambda"; "nonlocal"; "not"; "or"; "pass"; "raise"; "return"; "try"
  ; "while"; "with"; "yield" ].

Definition keyword (x : string) : bool := bool_decide (x ∈ keywords).

Definition is_op (c : ascii) (t : token) : bool :=
  match t with TOp c' => Ascii.eqb c c' | _ => false end.

(** Recursive descent, on fuel: an expression, the items of a list display
    or of an argument list up to [close], the pairs of a dict display, and
    the call suffixes of a primary.  A comma may follow the last item. *)
Fixpoint parse_expr (n : nat) (ts : list token) : option (expr * list token) :=
  match n with
  | 0 => None
  | S n =>
      match ts with
      | TString s :: r => Some (EStr s, r)
      | TName x :: r => if keyword x then None else parse_calls n (EName x) r
      | TOp c :: r =>
          if Ascii.eqb c "[" then
            '(es, r') ← parse_items n "]" r; Some (EList es, r')
          else if Ascii.eqb c "{" then
            '(kvs, r') ← parse_pairs n r; Some (EDict kvs, r')
          else None
      | _ => None
      end
  end
with parse_items (n : nat) (close : ascii) (ts : list token)
  : option (list expr * list token) :=
  match n with
  | 0 => None
  | S n =>
      match ts with
      | [] => None
      | t :: r =>
          if is_op close t then Some ([], r)
          else
            '(e, r1) ← parse_expr n ts;
            match r1 with
            | t1 :: r2 =>
                if is_op "," t1 then
                  '(es, r3) ← parse_items n close r2; Some (e :: es, r3)
                else if is_op close t1 then Some ([e], r2)
                else None
            | [] => None
            end
      end
  end
with parse_pairs (n : nat) (ts : list token)
  : option (list (expr * expr) * list token) :=
  match n with
  | 0 => None
  | S n =>
      match ts with
      | [] => None
      | t :: r =>
          if is_op "}" t then Some ([], r)
          else
            '(k, r1) ← parse_expr n ts;
            match r1 with
            | t1 :: r2 =>
                if is_op ":" t1 then
                  '(v, r3) ← parse_expr n r2;
                  match r3 with
                  | t3 :: r4 =>
                      if is_op "," t3 then
                        '(kvs, r5) ← parse_pairs n r4; Some ((k, v) :: kvs, r5)
                      else if is_op "}" t3 then Some ([(k, v)], r4)
                      else None
                  | [] => None
                  end
                else None
            | [] => None
            end
      end
  end
with parse_calls (n : nat) (e : expr) (ts : list token)
  : option (expr * list token) :=
  match n with
  | 0 => None
  | S n =>
      match ts with
      | t :: r =>
          if is_op "(" t then
            '(args, r') ← parse_items n ")" r; parse_calls n (ECall e args) r'
          else Some (e, ts)
      | [] => Some (e, ts)
      end
  end.

Definition fuel_for (ts : list token) : nat := 2 * List.length ts + 2.

(** A simple statement: an assignment to a name, or an expression.  It
    ends with its logical line. *)
Definition end_of_line {A} (a : A) (ts : list token) : option (A * list token) :=
  match ts with
  | TNewline :: r => Some (a, r)
  | _ => None
  end.

Definition parse_stmt (ts : list token) : option (stmt * list token) :=
  match ts with
  | TName x :: TOp c :: r =>
      if Ascii.eqb c "=" then
        if keyword x then None
        else '(e, r') ← parse_expr (fuel_for r) r; end_of_line (SAssign x e) r'
      else '(e, r') ← parse_expr (fuel_for ts) ts; end_of_line (SExpr e) r'
  | _ => '(e, r') ← parse_expr (fuel_for ts) ts; end_of_line (SExpr e) r'
  end.

Fixpoint parse_stmts (n : nat) (ts : list token) : option (list stmt) :=
  match n with
  | 0 => None
  | S n =>
      match ts with
      | [] => Some []
      | TNewline :: r => parse_stmts n r
      | _ => '(s, r) ← parse_stmt ts; ss ← parse_stmts n r; Some (s :: ss)
      end
  end.

Definition parse_module (text : string) : option (list stmt) :=
  ts ← tokenize text; parse_stmts (S (List.length ts)) ts.

(** *** Values of literal displays *)

(** The keys of a dict must be hashable; of the values of this fragment
    only strings are.  A dict keeps its keys in insertion order, and a key
    given twice keeps its place and takes the later value. *)
Inductive value : Type :=
| VStr (s : string)
| VList (items : list value)
| VDict (items : list (string * value)).

Fixpoint dict_set {V} (k : string) (v : V) (d : list (string * V))
  : list (string * V) :=
  match d with
  | [] => [(k, v)]
  | (k', v') :: d' =>
      if String.eqb k k' then (k, v) :: d' else (k', v') :: dict_set k v d'
  end.

Fixpoint dict_get {V} (k : string) (d : list (string * V)) : option V :=
  match d with
  | [] => None
  | (k', v) :: d' => if String.eqb k k' then Some v else dict_get k d'
  end.

(** The value of an expression built of displays and string literals only,
    as [ast.literal_eval] computes it; a name or a call has none. *)
Fixpoint literal_eval (e : expr) : option value :=
  match e with
  | EStr s => Some (VStr s)
  | EList es =>
      VList <$>
        (fix items (es : list expr) : option (list value) :=
           match es with
           | [] => Some []
           | e :: es' =>
               v ← literal_eval e; vs ← items es'; Some (v :: vs)
           end) es
  | EDict kvs =>
      VDict <$>
        (fix pairs (kvs : list (expr * expr)) (d : list (string * value))
           : option (list (string * value)) :=
           match kvs with
           | [] => Some d
           | (k, v) :: kvs' =>
               k' ← literal_eval k;
               v' ← literal_eval v;
               match k' with
               | VStr s => pairs kvs' (dict_set s v' d)
               | _ => None
               end
           end) kvs []
  | EName _ | ECall _ _ => None
  end.

(** Whether an expression is data: displays and string literals, with no
    name looked up and nothing called. *)
Fixpoint literal (e : expr) : bool :=
  match e with
  | EStr _ => true
  | EList es => forallb literal es
  | EDict kvs => forallb (λ kv, literal kv.1 && literal kv.2) kvs
  | EName _ | ECall _ _ => false
  end.

(** A module is pure data when each of its statements binds a name to such
    an expression. *)
Definition pure_data (m : list stmt) : bool :=
  forallb (λ s, match s with SAssign _ e => literal e | SExpr _ => false end) m.

Definition defined_names (m : list stmt) : list string :=
  omap (λ s, match s with SAssign x _ => Some x | SExpr _ => None end) m.

(** Running a module of this fragment: the namespace it leaves, a dict
    from names to values.  A statement that is not the binding of a
    literal has effects that are not modelled. *)
Fixpoint exec_module (m : list stmt) (ns : list (string * value))
  : option (list (string * value)) :=
  match m with
  | [] => Some ns
  | SAssign x e :: m' => v ← literal_eval e; exec_module m' (dict_set x v ns)
  | SExpr _ :: _ => None
  end.

Definition import_module (text : string) : option (list (string * value)) :=
  m ← parse_module text; exec_module m [].

End Python.

(** ** The configuration *)

Module Conf.
Import Python.

(** The syntax tree of [.glerbl/repo_conf.py]. *)
Definition repo_conf : list stmt :=
  [ SAssign "checks"
      (EDict
         [ (EStr "pre-commit",
            EList [ EStr "no_before_commit"
                  ; EStr "no_non_ascii_filenames"
                  ; EStr "no_trailing_whitespace" ]) ]) ].

(** [checks], as the module defines it: from a hook name to the checks to
    run, in order. *)
Definition checks : gmap string (list string) :=
  {[ "pre-commit" :=
       [ "no_before_commit"
       ; "no_non_ascii_filenames"
       ; "no_trailing_whitespace" ] ]}.

(** A value read as a hook configuration: a dict whose values are lists of
    strings. *)
Definition as_identifiers (v : value) : option (list string) :=
  match v with
  | VList items =>
      mapM (λ i, match i with VStr s => Some s | _ => None end) items
  | _ => None
  end.

Definition as_configuration (v : value) : option (gmap string (list string)) :=
  match v with
  | VDict items =>
      list_to_map <$> mapM (λ kv, ids ← as_identifiers kv.2; Some (kv.1, ids)) items
  | _ => None
  end.

(** The shape of a hook configuration in the syntax: a dict display whose
    keys are string literals and whose values are list displays of string
    literals. *)
Definition is_str (e : expr) : bool :=
  match e with EStr _ => true | _ => false end.

Definition hook_mapping (e : expr) : bool :=
  match e with
  | EDict kvs =>
      forallb
        (λ kv, is_str kv.1 &&
               match kv.2 with EList es => forallb is_str es | _ => false end)
        kvs
  | _ => false
  end.

(** What a consumer of the module gets: the configuration bound to the
    name [checks]. *)
Definition load_checks (text : string) : option (gmap string (list string)) :=
  ns ← import_module text; v ← dict_get "checks" ns; as_configuration v.

End Conf.

(** ** The consumer of the configuration

    The engine that reads [checks] and runs the checks is not part of the
    repository.  Its data model and its runner are modelled here from the
    specification. *)

Module Hooks.

(** Modelled from the spec: the Result of one check execution (section 3),
    which is absent from the repository: a status, an optional message and
    the offending locations. *)
Inductive Status : Type := Pass | Fail | Error.

Record Result : Type := {
  status : Status;
  message : option string;
  locations : list string
}.

(** Modelled from the spec: the working-tree context a check is given
    (section 4.1): the root path, the changed file paths and an accessor
    to the content of a file. *)
Record Context : Type := {
  root : string;
  changed : list string;
  content : string → option string
}.

(** Modelled from the spec: a Check (sections 3 and 4.1), absent from the
    repository: an identifier, a description and an execution capability,
    a function from the working-tree context to a Result. *)
Module Check.
Record t : Type := {
  identifier : string;
  description : string;
  run : Context → Result
}.
End Check.

(** Modelled from the spec: the Check Registry (section 4.2), absent from
    the repository: a mapping from identifier to Check, built once before
    any run and only read by the runner; [resolve] fails with UnknownCheck
    when the identifier is not present. *)
Module Registry.
Inductive error : Type :=
| UnknownCheck (id : string).

Definition resolve (id : string) (reg : gmap string Check.t)
  : error + Check.t :=
  match reg !! id with
  | Some c => inr c
  | None => inl (UnknownCheck id)
  end.
End Registry.

(** Modelled from the spec: how the Check Registry is built (section 4.2),
    absent from the repository: [register] adds a Check under its own
    identifier and fails with DuplicateIdentifier when that identifier is
    already taken.  A registry built this way is keyed by the identifiers of
    its checks (section 3: the identifier is the identity of a Check and the
    key the configuration uses). *)
Inductive duplicate : Type :=
| DuplicateIdentifier (id : string).

Definition register (c : Check.t) (reg : gmap string Check.t)
  : duplicate + gmap string Check.t :=
  match reg !! Check.identifier c with
  | Some _ => inl (DuplicateIdentifier (Check.identifier c))
  | None => inr (<[Check.identifier c := c]> reg)
  end.

Definition keyed_by_identifier (reg : gmap string Check.t) : Prop :=
  ∀ id c, reg !! id = Some c → Check.identifier c = id.

(** Modelled from the spec: the RunReport (section 3), absent from the
    repository: the Results of one hook invocation, ordered as executed,
    and its derived verdict, Pass if and only if every Result is Pass. *)
Record RunReport : Type := { results : list Result }.

Inductive Verdict : Type := VerdictPass | VerdictFail.

Definition is_pass (r : Result) : bool :=
  match status r with Pass => true | Fail | Error => false end.

Definition verdict (report : RunReport) : Verdict :=
  if forallb is_pass (results report) then VerdictPass else VerdictFail.

(** Modelled from the spec: the Runner (section 4.3), absent from the
    repository.  Every identifier bound to the hook is resolved first, in
    list order, and an UnknownCheck is a configuration error that ends the
    run before any check executes; then every check is executed against
    the context, in list order, whatever the earlier Results are, and its
    Result is collected.  The state that is threaded is the log of the
    identifiers of the checks executed so far.  The spec does not say what
    a hook that the configuration does not bind gives; it is taken as the
    other configuration error, a malformed configuration. *)
Module Runner.
Inductive ConfigurationError : Type :=
| UnknownIdentifier (id : string)
| MalformedConfiguration (hook : string).

Fixpoint resolve_all (registry : gmap string Check.t) (ids : list string)
  : ConfigurationError + list Check.t :=
  match ids with
  | [] => inr []
  | id :: ids' =>
      match Registry.resolve id registry with
      | inl _ => inl (UnknownIdentifier id)
      | inr c =>
          match resolve_all registry ids' with
          | inl e => inl e
          | inr cs => inr (c :: cs)
          end
      end
  end.

Definition execute (context : Context) (c : Check.t) (log : list string)
  : Result * list string :=
  (Check.run c context, log ++ [Check.identifier c]).

Fixpoint execute_all (context : Context) (cs : list Check.t)
  (log : list string) : list Result * list string :=
  match cs with
  | [] => ([], log)
  | c :: cs' =>
      let '(r, log1) := execute context c log in
      let '(rs, log2) := execute_all context cs' log1 in
      (r :: rs, log2)
  end.

Definition run (hookName : string)
  (configuration : gmap string (list string))
  (registry : gmap string Check.t) (context : Context)
  (log : list string) : (ConfigurationError + RunReport) * list string :=
  match configuration !! hookName with
  | None => (inl (MalformedConfiguration hookName), log)
  | Some ids =>
      match resolve_all registry ids with
      | inl e => (inl e, log)
      | inr cs =>
          let '(rs, log') := execute_all context cs log in
          (inr {| results := rs |}, log')
      end
  end.
End Runner.

(** Checks for trying the runner: one that always gives the same status,
    and a context with no file. *)
Definition constant_check (id : string) (s : Status) : Check.t :=
  {| Check.identifier := id;
     Check.description := id;
     Check.run := λ _, {| status := s; message := None; locations := [] |} |}.

Definition empty_context : Context :=
  {| root := "."; changed := []; content := λ _, None |}.

Definition registry_of (cs : list Check.t) : gmap string Check.t :=
  list_to_map ((λ c, (Check.identifier c, c)) <$> cs).

(** The three checks that the repository's configuration names, here with
    fixed outcomes: the first and the last fail, the second passes. *)
Definition sample_registry : gmap string Check.t :=
  registry_of
    [ constant_check "no_before_commit" Fail
    ; constant_check "no_non_ascii_filenames" Pass
    ; constant_check "no_trailing_whitespace" Fail ].

(** A registry that is not keyed by identifier, as [register] never builds
    one: the three names of the configuration all stand for one check. *)
Definition aliasing_registry : gmap string Check.t :=
  list_to_map
    [ ("no_before_commit", constant_check "no_before_commit" Fail)
    ; ("no_non_ascii_filenames", constant_check "no_before_commit" Fail)
    ; ("no_trailing_whitespace", constant_check "no_before_commit" Fail) ].

(** A configuration that names a check nobody registered. *)
Definition misconfigured : gmap string (list string) :=
  {[ "pre-commit" := [ "no_before_commit"; "no_such_check" ] ]}.

Definition passed : Result :=
  {| status := Pass; message := None; locations := [] |}.

Definition failed : Result :=
  {| status := Fail; message := None; locations := [] |}.

End Hooks.

(** * Properties *)

Import Source Python Conf.

(** ** The text and its reading *)

(** The text is the 354 bytes of the file, and splitting it gives back the
    thirteen lines it was written from. *)
Lemma repo_conf_py_length : String.length repo_conf_py = 354.
Proof. reflexivity. Qed.

Lemma repo_conf_py_splitlines : splitlines repo_conf_py = repo_conf_lines.
Proof. reflexivity. Qed.

(** The last line is not ended by a line feed: there are twelve of them. *)
Lemma repo_conf_py_line_feeds : count_lf repo_conf_py = 12.
Proof. reflexivity. Qed.

(** The comments and the layout leave four kinds of tokens. *)
Lemma repo_conf_tokens :
  tokenize repo_conf_py =
    Some [ TName "checks"; TOp "="; TOp "{"; TString "pre-commit"; TOp ":"
         ; TOp "["; TString "no_before_commit"; TOp ","
         ; TString "no_non_ascii_filenames"; TOp ","
         ; TString "no_trailing_whitespace"; TOp ","; TOp "]"; TOp "}"
         ; TNewline ].
Proof. reflexivity. Qed.

Lemma repo_conf_parses : parse_module repo_conf_py = Some repo_conf.
Proof. vm_compute. reflexivity. Qed.

(** *** Data and evaluation

    An expression that has a value under [literal_eval] is data; so a module
    that [exec_module] runs is pure data. *)

Lemma expr_nested_ind (P : expr → Prop) :
  (∀ s, P (EStr s)) →
  (∀ x, P (EName x)) →
  (∀ es, Forall P es → P (EList es)) →
  (∀ kvs, Forall (λ kv, P kv.1 ∧ P kv.2) kvs → P (EDict kvs)) →
  (∀ f args, P f → Forall P args → P (ECall f args)) →
  ∀ e, P e.
Proof.
  intros Hstr Hname Hlist Hdict Hcall.
  fix IH 1. intros [s|x|es|kvs|f args].
  - apply Hstr.
  - apply Hname.
  - apply Hlist. induction es as [|e es IHes]; constructor; [apply IH|exact IHes].
  - apply Hdict. induction kvs as [|[k v] kvs IHkvs]; constructor;
      [split; apply IH|exact IHkvs].
  - apply Hcall; [apply IH|].
    induction args as [|a args IHargs]; constructor; [apply IH|exact IHargs].
Qed.

Lemma literal_eval_literal (e : expr) :
  is_Some (literal_eval e) → literal e = true.
Proof.
  induction e as [s|x|es IHes|kvs IHkvs|f args _ _] using expr_nested_ind;
    simpl; intros [v Hv]; try reflexivity; try discriminate.
  - apply fmap_Some in Hv as (vs & Hvs & _). clear v.
    revert vs Hvs. induction IHes as [|e es He _ IH]; intros vs Hvs; [reflexivity|].
    simpl. destruct (literal_eval e) as [v|] eqn:Hev; [|discriminate].
    simpl in Hvs.
    match type of Hvs with (?items ≫= _) = _ =>
      destruct items as [vs'|] eqn:Hrest; [|discriminate] end.
    rewrite He by (eexists; reflexivity). simpl. eapply IH. reflexivity.
  - apply fmap_Some in Hv as (d' & Hd & _). clear v.
    revert Hd. generalize (@nil (string * value)). revert d'.
    induction IHkvs as [|[k v] kvs [Hk Hv] _ IH]; intros d' d Hd; [reflexivity|].
    simpl in *.
    destruct (literal_eval k) as [k'|] eqn:Hek; [|discriminate]. simpl in Hd.
    destruct (literal_eval v) as [v'|] eqn:Hev; [|discriminate]. simpl in Hd.
    rewrite Hk, Hv by (eexists; reflexivity). simpl.
    destruct k'; try discriminate. eapply IH. exact Hd.
Qed.

Lemma exec_module_pure_data (m : list stmt) (ns : list (string * value)) :
  is_Some (exec_module m ns) → pure_data m = true.
Proof.
  revert ns. induction m as [|[x e|e] m IH]; intros ns [ns' H]; simpl in *;
    [reflexivity| |discriminate].
  destruct (literal_eval e) as [v|] eqn:He; [|discriminate]. simpl in H.
  rewrite literal_eval_literal by (rewrite He; eexists; reflexivity). simpl.
  apply (IH (dict_set x v ns)). eexists. exact H.
Qed.

(** The reading does tell data from behaviour: a call, a name that is
    looked up, or a statement that is only an expression is not data, and a
    definition is outside the fragment altogether. *)
Example call_is_not_data :
  pure_data <$> parse_module "checks = {'pre-commit': load('checks')}"
  = Some false.
Proof. vm_compute. reflexivity. Qed.

Example name_is_not_data :
  pure_data <$> parse_module "checks = {'pre-commit': defaults}" = Some false.
Proof. vm_compute. reflexivity. Qed.

Example expression_statement_is_not_data :
  pure_data <$> parse_module "install('pre-commit')" = Some false.
Proof. vm_compute. reflexivity. Qed.

Example def_is_outside :
  parse_module "def checks(): return ['no_before_commit']" = None.
Proof. vm_compute. reflexivity. Qed.

Example two_hooks_are_data :
  pure_data <$> parse_module "checks = {'pre-commit': ['a'], 'pre-push': []}"
  = Some true.
Proof. vm_compute. reflexivity. Qed.

(** A dict display that gives a key twice keeps the later value. *)
Example later_binding_wins :
  load_checks "checks = {'pre-commit': ['a'], 'pre-commit': ['b']}"
  = Some {[ "pre-commit" := ["b"] ]}.
Proof. vm_compute. reflexivity. Qed.

(** ** The configuration *)

(** C1.  The configuration that the module text defines is [checks]; it maps
    the hook name pre-commit to the list no_before_commit,
    no_non_ascii_filenames, no_trailing_whitespace, in that order, and
    pre-commit is the only hook name it binds. *)
Theorem checks_binds_pre_commit_only :
  load_checks repo_conf_py = Some checks
  ∧ checks !! "pre-commit"
    = Some [ "no_before_commit"
           ; "no_non_ascii_filenames"
           ; "no_trailing_whitespace" ]
  ∧ dom checks = {[ "pre-commit" ]}
  ∧ map_to_list checks
    = [ ("pre-commit",
         [ "no_before_commit"
         ; "no_non_ascii_filenames"
         ; "no_trailing_whitespace" ]) ].
Proof.
  split; [vm_compute; reflexivity|].
  split; [apply lookup_singleton_eq|].
  split; [apply dom_singleton_L|].
  apply map_to_list_singleton.
Qed.

(** C7.  The module is pure data: its text parses to one statement, the
    binding of the name checks to a dict display; that display is built of
    string literals and list displays only, its keys are string literals and
    the elements of its lists are string literals; no name is looked up and
    nothing is called, and no definition occurs, a definition being outside
    the fragment that [parse_module] reads. *)
Theorem repo_conf_is_pure_data :
  parse_module repo_conf_py = Some repo_conf
  ∧ defined_names repo_conf = ["checks"]
  ∧ pure_data repo_conf = true
  ∧ ∃ display,
      repo_conf = [SAssign "checks" display]
      ∧ hook_mapping display = true
      ∧ literal display = true
      ∧ (literal_eval display ≫= as_configuration) = Some checks.
Proof.
  split; [exact repo_conf_parses|].
  split; [reflexivity|].
  split; [reflexivity|].
  eexists. split; [reflexivity|].
  split; [reflexivity|].
  split; [reflexivity|].
  vm_compute. reflexivity.
Qed.

(** C9.  The source file is thirteen lines long. *)
Theorem repo_conf_py_has_13_lines : line_count repo_conf_py = 13.
Proof. reflexivity. Qed.

(** The three identifiers bound to pre-commit are pairwise distinct. *)
Lemma pre_commit_no_dup :
  NoDup [ "no_before_commit"; "no_non_ascii_filenames"; "no_trailing_whitespace" ].
Proof. apply (bool_decide_unpack _). vm_compute. reflexivity. Qed.

(** ** The runner, as the specification describes it *)

Import Hooks.

Section RunnerFacts.
Variable registry : gmap string Check.t.
Variable context : Context.

(** Resolution succeeds exactly when every identifier is registered, and
    then gives the registered checks, position by position. *)
Lemma resolve_all_inr (ids : list string) (cs : list Check.t) :
  Runner.resolve_all registry ids = inr cs →
  Forall2 (λ id c, registry !! id = Some c) ids cs.
Proof.
  revert cs. induction ids as [|id ids IH]; intros cs; simpl.
  - intros [= <-]. constructor.
  - unfold Registry.resolve. destruct (registry !! id) as [c|] eqn:Hid; [|discriminate].
    destruct (Runner.resolve_all registry ids) as [e|cs'] eqn:Hrest; [discriminate|].
    intros [= <-]. constructor; [exact Hid|]. apply IH. reflexivity.
Qed.

Lemma resolve_all_known (ids : list string) :
  Forall (λ id, is_Some (registry !! id)) ids →
  ∃ cs, Runner.resolve_all registry ids = inr cs.
Proof.
  induction 1 as [|id ids [c Hc] _ [cs Hcs]]; simpl.
  - eexists. reflexivity.
  - unfold Registry.resolve. rewrite Hc, Hcs. eexists. reflexivity.
Qed.

(** With an identifier that is not registered, resolution stops at the
    first such identifier of the list. *)
Lemma resolve_all_unknown (ids : list string) (id : string) :
  id ∈ ids → registry !! id = None →
  ∃ id', id' ∈ ids ∧ registry !! id' = None
         ∧ Runner.resolve_all registry ids = inl (Runner.UnknownIdentifier id').
Proof.
  intros Hin Hnone. induction ids as [|x ids IH]; [inversion Hin|].
  simpl. unfold Registry.resolve.
  destruct (registry !! x) as [c|] eqn:Hx.
  - assert (Hin' : id ∈ ids).
    { apply elem_of_cons in Hin as [->|Hin]; [congruence|exact Hin]. }
    destruct (IH Hin') as (id' & Hid' & Hnone' & ->).
    exists id'. split; [right; exact Hid'|]. split; [exact Hnone'|reflexivity].
  - exists x. split; [left|]. split; [exact Hx|reflexivity].
Qed.

(** Execution collects one Result per check, in the order of the checks,
    whatever the Results are. *)
Lemma execute_all_results (cs : list Check.t) (log : list string) :
  (Runner.execute_all context cs log).1 = map (λ c, Check.run c context) cs.
Proof.
  revert log. induction cs as [|c cs IH]; intros log; simpl; [reflexivity|].
  specialize (IH (log ++ [Check.identifier c])).
  destruct (Runner.execute_all context cs (log ++ [Check.identifier c])) as [rs log2].
  simpl in *. rewrite IH. reflexivity.
Qed.
End RunnerFacts.

Lemma forallb_is_pass (rs : list Result) :
  forallb is_pass rs = true ↔ Forall (λ r, status r = Pass) rs.
Proof.
  rewrite forallb_forall, Forall_forall.
  split; intros H r Hr.
  - apply list_elem_of_In in Hr. specialize (H r Hr).
    unfold is_pass in H. destruct (status r); [reflexivity|discriminate..].
  - apply list_elem_of_In in Hr. specialize (H r Hr).
    unfold is_pass. rewrite H. reflexivity.
Qed.

(** C3.  When the list bound to the hook holds an identifier that the
    registry does not know, the run ends with a configuration error naming
    such an identifier: no report is produced, and the log of executed
    checks is left as it was, so no check was executed. *)
Theorem unknown_identifier_aborts_run
  (hookName : string) (configuration : gmap string (list string))
  (registry : gmap string Check.t) (context : Context) (log : list string)
  (ids : list string) (id : string) :
  configuration !! hookName = Some ids →
  id ∈ ids →
  registry !! id = None →
  ∃ id', id' ∈ ids ∧ registry !! id' = None
         ∧ Runner.run hookName configuration registry context log
           = (inl (Runner.UnknownIdentifier id'), log).
Proof.
  intros Hconf Hin Hnone.
  destruct (resolve_all_unknown registry ids id Hin Hnone) as (id' & Hin' & Hnone' & Hres).
  exists id'. split; [exact Hin'|]. split; [exact Hnone'|].
  unfold Runner.run. rewrite Hconf, Hres. reflexivity.
Qed.

(** C4.  The verdict of a report is Pass if and only if every one of its
    Results is Pass; and putting a Result that is Fail or Error in the place
    of any one Result, at any position, makes the verdict Fail. *)
Theorem verdict_pass_iff_all_pass (report : RunReport) :
  (verdict report = VerdictPass ↔ Forall (λ r, status r = Pass) (results report))
  ∧ ∀ (i : nat) (r : Result),
      i < length (results report) →
      status r = Fail ∨ status r = Error →
      verdict {| results := <[i := r]> (results report) |} = VerdictFail.
Proof.
  split.
  - rewrite <- forallb_is_pass. unfold verdict.
    destruct (forallb is_pass (results report)); split; intros H;
      first [reflexivity | discriminate].
  - intros i r Hi Hr. unfold verdict. simpl.
    destruct (forallb is_pass (<[i:=r]> (results report))) eqn:Hall; [|reflexivity].
    apply forallb_is_pass in Hall.
    assert (Hat : <[i:=r]> (results report) !! i = Some r)
      by (apply list_lookup_insert_eq; exact Hi).
    pose proof (Forall_lookup_1 _ _ _ _ Hall Hat) as Hpass. simpl in Hpass.
    destruct Hr as [Hr|Hr]; rewrite Hr in Hpass; discriminate.
Qed.

(** C5.  When the N identifiers bound to the hook all resolve, the run
    produces a report of exactly N Results, and the Result at each position
    is the one of the check registered under the identifier at that position
    of the list. *)
Theorem run_reports_each_check_in_order
  (hookName : string) (configuration : gmap string (list string))
  (registry : gmap string Check.t) (context : Context) (log : list string)
  (ids : list string) :
  configuration !! hookName = Some ids →
  Forall (λ id, is_Some (registry !! id)) ids →
  ∃ report log',
    Runner.run hookName configuration registry context log = (inr report, log')
    ∧ length (results report) = length ids
    ∧ Forall2 (λ id r, ∃ c, registry !! id = Some c ∧ r = Check.run c context)
        ids (results report).
Proof.
  intros Hconf Hall.
  destruct (resolve_all_known registry ids Hall) as [cs Hcs].
  pose proof (resolve_all_inr registry ids cs Hcs) as Hres.
  pose proof (execute_all_results context cs log) as Hrs.
  unfold Runner.run. rewrite Hconf, Hcs.
  destruct (Runner.execute_all context cs log) as [rs log'] eqn:Hexec.
  simpl in Hrs. subst rs.
  exists {| results := map (λ c, Check.run c context) cs |}, log'.
  split; [reflexivity|]. simpl. split.
  - rewrite length_map. symmetry. exact (Forall2_length _ _ _ Hres).
  - apply Forall2_fmap_r. eapply Forall2_impl; [exact Hres|].
    intros id c Hc. exists c. split; [exact Hc|reflexivity].
Qed.

(** The runner on the repository's configuration, with the sample registry:
    the three checks are executed in the order of the list, the failure of
    the first does not keep the others from running, and the verdict is
    Fail. *)
Example run_on_checks :
  ∃ report,
    Runner.run "pre-commit" checks sample_registry empty_context []
    = (inr report,
       [ "no_before_commit"; "no_non_ascii_filenames"; "no_trailing_whitespace" ])
    ∧ status <$> results report = [Fail; Pass; Fail]
    ∧ verdict report = VerdictFail.
Proof. eexists. split; [vm_compute; reflexivity|]. split; reflexivity. Qed.

(** The abort, on a configuration that names a check nobody registered. *)
Lemma unknown_identifier_aborts_run_witness :
  ∃ id', id' ∈ [ "no_before_commit"; "no_such_check" ]
         ∧ sample_registry !! id' = None
         ∧ Runner.run "pre-commit" misconfigured sample_registry empty_context []
           = (inl (Runner.UnknownIdentifier id'), []).
Proof.
  apply (unknown_identifier_aborts_run "pre-commit" misconfigured sample_registry
           empty_context [] [ "no_before_commit"; "no_such_check" ] "no_such_check").
  - apply lookup_singleton_eq.
  - right. left.
  - vm_compute. reflexivity.
Defined.

(** One failure among three Results, in the middle. *)
Lemma verdict_pass_iff_all_pass_witness :
  verdict {| results := <[1 := failed]> [passed; passed; passed] |} = VerdictFail.
Proof.
  apply (proj2 (verdict_pass_iff_all_pass {| results := [passed; passed; passed] |})).
  - simpl. lia.
  - left. reflexivity.
Defined.

(** The report of the run on the repository's configuration. *)
Lemma run_reports_each_check_in_order_witness :
  ∃ report log',
    Runner.run "pre-commit" checks sample_registry empty_context [] = (inr report, log')
    ∧ length (results report) = 3
    ∧ Forall2 (λ id r, ∃ c, sample_registry !! id = Some c
                            ∧ r = Check.run c empty_context)
        [ "no_before_commit"; "no_non_ascii_filenames"; "no_trailing_whitespace" ]
        (results report).
Proof.
  apply (run_reports_each_check_in_order "pre-commit" checks sample_registry
           empty_context []
           [ "no_before_commit"; "no_non_ascii_filenames"; "no_trailing_whitespace" ]).
  - apply lookup_singleton_eq.
  - repeat constructor; eexists; vm_compute; reflexivity.
Defined.

(** ** Distinct identifiers, distinct checks *)

(** The registry that [register] builds is keyed by the identifiers of its
    checks, and so is the one [registry_of] builds. *)
Lemma empty_keyed : keyed_by_identifier ∅.
Proof. intros id c H. rewrite lookup_empty in H. discriminate. Qed.

Lemma register_keyed (c : Check.t) (reg reg' : gmap string Check.t) :
  keyed_by_identifier reg → register c reg = inr reg' → keyed_by_identifier reg'.
Proof.
  intros Hreg. unfold register.
  destruct (reg !! Check.identifier c) eqn:Hc; [discriminate|].
  intros [= <-] id c' Hid.
  destruct (decide (Check.identifier c = id)) as [<-|Hne].
  - rewrite lookup_insert_eq in Hid. congruence.
  - rewrite lookup_insert_ne in Hid by exact Hne. exact (Hreg id c' Hid).
Qed.

Lemma registry_of_keyed (cs : list Check.t) : keyed_by_identifier (registry_of cs).
Proof.
  intros id c H. unfold registry_of in H.
  apply elem_of_list_to_map_2 in H.
  apply list_elem_of_fmap in H as (c' & [= -> ->] & _). reflexivity.
Qed.

(** In a registry keyed by identifier, a check is resolved from its own
    identifier only. *)
Lemma resolve_injective (registry : gmap string Check.t) (id1 id2 : string)
  (c : Check.t) :
  keyed_by_identifier registry →
  Registry.resolve id1 registry = inr c →
  Registry.resolve id2 registry = inr c →
  id1 = id2.
Proof.
  intros Hkeyed. unfold Registry.resolve.
  destruct (registry !! id1) as [c1|] eqn:H1; [|discriminate].
  destruct (registry !! id2) as [c2|] eqn:H2; [|discriminate].
  intros [= ->] [= ->].
  rewrite <- (Hkeyed id1 c H1). exact (Hkeyed id2 c H2).
Qed.

Lemma resolve_all_identifiers (registry : gmap string Check.t)
  (ids : list string) (cs : list Check.t) :
  keyed_by_identifier registry →
  Runner.resolve_all registry ids = inr cs →
  Check.identifier <$> cs = ids.
Proof.
  intros Hkeyed Hres. apply resolve_all_inr in Hres.
  induction Hres as [|id c ids cs Hc _ IH]; [reflexivity|].
  rewrite fmap_cons, (Hkeyed id c Hc), IH. reflexivity.
Qed.

(** Execution logs the identifier of each check it runs, in order. *)
Lemma execute_all_log (context : Context) (cs : list Check.t) (log : list string) :
  (Runner.execute_all context cs log).2 = log ++ (Check.identifier <$> cs).
Proof.
  revert log. induction cs as [|c cs IH]; intros log; simpl.
  - rewrite app_nil_r. reflexivity.
  - specialize (IH (log ++ [Check.identifier c])).
    destruct (Runner.execute_all context cs (log ++ [Check.identifier c])) as [rs log2].
    simpl in *. rewrite IH, <- app_assoc. reflexivity.
Qed.

(** Distinct names alone do not keep a check from running twice: in a
    registry where the names are aliases of one check, that check is
    executed three times.  Hence the condition on the registry below. *)
Example aliases_run_one_check_thrice :
  (Runner.run "pre-commit" checks aliasing_registry empty_context []).2
  = [ "no_before_commit"; "no_before_commit"; "no_before_commit" ].
Proof. vm_compute. reflexivity. Qed.

(** C10.  The three identifiers bound to pre-commit are pairwise distinct:
    the list has no duplicate and an identifier stands at one position only.
    So, in every registry keyed by the identifiers of its checks, each
    configured identifier resolves to at most one entry, no check is
    resolved from two positions of the list, and a run of the pre-commit
    hook executes no check twice: the checks it executes are logged without
    a duplicate, and they are the checks of the list, each once and in
    order, when all three are registered. *)
Theorem pre_commit_identifiers_distinct
  (registry : gmap string Check.t) (context : Context) (log : list string) :
  keyed_by_identifier registry →
  ∃ ids : list string,
    checks !! "pre-commit" = Some ids
    ∧ length ids = 3
    ∧ NoDup ids
    ∧ (∀ (i j : nat) (id : string),
         ids !! i = Some id → ids !! j = Some id → i = j)
    ∧ (∀ (id : string) (c1 c2 : Check.t),
         id ∈ ids →
         Registry.resolve id registry = inr c1 →
         Registry.resolve id registry = inr c2 → c1 = c2)
    ∧ (∀ (i j : nat) (id1 id2 : string) (c : Check.t),
         ids !! i = Some id1 → ids !! j = Some id2 →
         Registry.resolve id1 registry = inr c →
         Registry.resolve id2 registry = inr c → i = j)
    ∧ ∃ executed : list string,
        (Runner.run "pre-commit" checks registry context log).2 = log ++ executed
        ∧ NoDup executed
        ∧ (Forall (λ id, is_Some (registry !! id)) ids → executed = ids).
Proof.
  intros Hkeyed.
  pose proof pre_commit_no_dup as Hnd.
  eexists. split; [apply lookup_singleton_eq|].
  split; [reflexivity|]. split; [exact Hnd|].
  split; [intros i j id Hi Hj; exact (NoDup_lookup _ i j id Hnd Hi Hj)|].
  split; [intros id c1 c2 _ H1 H2; congruence|].
  split.
  { intros i j id1 id2 c Hi Hj H1 H2.
    pose proof (resolve_injective registry id1 id2 c Hkeyed H1 H2) as <-.
    exact (NoDup_lookup _ i j id1 Hnd Hi Hj). }
  unfold Runner.run, checks. rewrite lookup_singleton_eq.
  match goal with |- context [Runner.resolve_all registry ?l] =>
    set (ids := l) in * end.
  destruct (Runner.resolve_all registry ids) as [e|cs] eqn:Hres.
  - exists []. simpl. split; [rewrite app_nil_r; reflexivity|].
    split; [constructor|].
    intros Hall. destruct (resolve_all_known registry ids Hall) as [cs Hcs].
    congruence.
  - pose proof (resolve_all_identifiers registry ids cs Hkeyed Hres) as Hids.
    pose proof (execute_all_log context cs log) as Hlog.
    destruct (Runner.execute_all context cs log) as [rs log'].
    simpl in *. exists ids. split; [rewrite Hlog, Hids; reflexivity|].
    split; [exact Hnd|]. intros _. reflexivity.
Qed.

(** The pre-commit hook on the sample registry: the three checks, once
    each. *)
Lemma pre_commit_identifiers_distinct_witness :
  ∃ ids : list string,
    checks !! "pre-commit" = Some ids
    ∧ length ids = 3
    ∧ NoDup ids
    ∧ (∀ (i j : nat) (id : string),
         ids !! i = Some id → ids !! j = Some id → i = j)
    ∧ (∀ (id : string) (c1 c2 : Check.t),
         id ∈ ids →
         Registry.resolve id sample_registry = inr c1 →
         Registry.resolve id sample_registry = inr c2 → c1 = c2)
    ∧ (∀ (i j : nat) (id1 id2 : string) (c : Check.t),
         ids !! i = Some id1 → ids !! j = Some id2 →
         Registry.resolve id1 sample_registry = inr c →
         Registry.resolve id2 sample_registry = inr c → i = j)
    ∧ ∃ executed : list string,
        (Runner.run "pre-commit" checks sample_registry empty_context []).2
        = [] ++ executed
        ∧ NoDup executed
        ∧ (Forall (λ id, is_Some (sample_registry !! id)) ids → executed = ids).
Proof.
  apply (pre_commit_identifiers_distinct sample_registry empty_context []).
  apply registry_of_keyed.
Defined.
